(** * Munki-Deploy-Azure: the runbook template

    A shallow embedding of [runbooktemplate.py], the Azure Automation
    runbook that starts the Munki manifest generator either for one
    device (webhook run) or for the whole fleet (scheduled run), and the
    properties of its dispatch logic.

    Conventions of the model.
    - A Python [str] is the list of its Unicode code points ([str]).
      Literals of the source are written as Rocq strings and converted
      with [txt].
    - The script is straight-line code over library calls.  Each library
      call that leaves the script ([json.loads],
      [automationassets.get_automation_variable], the assignment to
      [os.environ], [mmg.main]) is recorded in a log, in program order.
    - An uncaught Python exception ends the run; the model returns it.
    - The libraries are modelled at their interface.  The Automation
      variables are a partial function from names to [str] values;
      [os.environ] is a finite map and an assignment to it an insertion;
      [mmg.main] is opaque, and the run ends with its call. *)

From Stdlib Require Import ZArith NArith String Ascii List.
From stdpp Require Import base option list gmap strings.

Local Open Scope N_scope.

(** ** Python text *)

(** A code point, and a [str]. *)
Definition char : Type := N.
Definition str : Type := list char.

(** The [str] denoted by a source literal (ASCII or Latin-1). *)
Fixpoint txt (s : string) : str :=
  match s with
  | EmptyString => []
  | String a s' => N_of_ascii a :: txt s'
  end.

(** The double quote, which the literals below are assembled with. *)
Definition dquote : char := 34.

(** [quoted s] is the JSON string literal for a plain [s]. *)
Definition quoted (s : string) : str := dquote :: txt s ++ [dquote].

(** The methods of [str] the script calls. *)
Module Str.

(** [old] is a prefix of [s] (Python [s.startswith(old)]). *)
Fixpoint startswith (s old : str) : bool :=
  match old, s with
  | [], _ => true
  | _ :: _, [] => false
  | o :: old', c :: s' => (c =? o) && startswith s' old'
  end.

(** [s.split(sep)] for a one-character separator: the fields between
    the separators, never an empty list. *)
Fixpoint split (sep : char) (s : str) : list str :=
  match s with
  | [] => [[]]
  | c :: s' =>
      if c =? sep then [] :: split sep s'
      else match split sep s' with
           | [] => [[c]]
           | f :: fs => (c :: f) :: fs
           end
  end.

(** [s.replace(old, new)] for a non-empty [old]: scanning from the left,
    every occurrence of [old] that does not overlap an earlier one is
    replaced by [new].  [skip] counts the characters of a matched
    occurrence that are still to be passed over. *)
Fixpoint replace_from (skip : nat) (old new s : str) : str :=
  match s with
  | [] => []
  | c :: s' =>
      match skip with
      | S k => replace_from k old new s'
      | O =>
          if startswith s old
          then new ++ replace_from (length old - 1) old new s'
          else c :: replace_from 0 old new s'
      end
  end.

Definition replace (old new s : str) : str := replace_from 0 old new s.

End Str.

(** ** [json.loads]

    The values [json.loads] returns, and the decoder of the standard
    library ([json.decoder], [json.scanner]) as a recursive descent over
    the code points.  A [float] is kept as the literal Python's
    [float()] is applied to; the interpreter's recursion limit is not
    modelled. *)

#[warnings="-register-all"]
Inductive json : Type :=
  | JNone
  | JBool (b : bool)
  | JInt (z : Z)
  | JFloat (literal : str)
  | JStr (s : str)
  | JList (items : list json)
  | JDict (pairs : list (str * json)).

Module Json.

(** Equality of code-point strings, as a boolean. *)
Definition str_eqb (a b : str) : bool := bool_decide (a = b).

(** [d[k] = v] on a [dict] kept as its items in insertion order: an
    existing key keeps its place and takes the new value. *)
Fixpoint dict_set (k : str) (v : json) (d : list (str * json)) : list (str * json) :=
  match d with
  | [] => [(k, v)]
  | (k', v') :: d' =>
      if str_eqb k' k then (k', v) :: d' else (k', v') :: dict_set k v d'
  end.

(** [dict(pairs)]. *)
Definition dict (pairs : list (str * json)) : list (str * json) :=
  fold_left (fun d kv => dict_set (fst kv) (snd kv) d) pairs [].

(** [d.get(k)] on the items of a [dict]. *)
Fixpoint dict_get (k : str) (d : list (str * json)) : option json :=
  match d with
  | [] => None
  | (k', v) :: d' => if str_eqb k' k then Some v else dict_get k d'
  end.

(** The whitespace of the decoder: space, tab, line feed, carriage return. *)
Definition is_ws (c : char) : bool :=
  (c =? 32) || (c =? 9) || (c =? 10) || (c =? 13).

Fixpoint skip_ws (s : str) : str :=
  match s with
  | c :: s' => if is_ws c then skip_ws s' else s
  | [] => []
  end.

(** [expect c s] is what follows [c] when [s] starts with it. *)
Definition expect (c : char) (s : str) : option str :=
  match s with
  | c' :: s' => if c' =? c then Some s' else None
  | [] => None
  end.

(** [literal w s] is what follows the word [w] when [s] starts with it. *)
Definition literal (w : string) (s : str) : option str :=
  if Str.startswith s (txt w) then Some (drop (length (txt w)) s) else None.

Definition is_digit (c : char) : bool := (48 <=? c) && (c <=? 57).

(** The value of a hexadecimal digit. *)
Definition hex_digit (c : char) : option N :=
  if is_digit c then Some (c - 48)
  else if (97 <=? c) && (c <=? 102) then Some (c - 87)
  else if (65 <=? c) && (c <=? 70) then Some (c - 55)
  else None.

(** The code unit of a [\uXXXX] escape. *)
Definition hex4 (a b c d : char) : option N :=
  match hex_digit a, hex_digit b, hex_digit c, hex_digit d with
  | Some x, Some y, Some z, Some w => Some (x * 4096 + y * 256 + z * 16 + w)
  | _, _, _, _ => None
  end.

(** The one-character escapes. *)
Definition unescape (e : char) : option char :=
  if e =? 34 then Some 34          (* quote *)
  else if e =? 92 then Some 92     (* backslash *)
  else if e =? 47 then Some 47     (* slash *)
  else if e =? 98 then Some 8      (* b *)
  else if e =? 102 then Some 12    (* f *)
  else if e =? 110 then Some 10    (* n *)
  else if e =? 114 then Some 13    (* r *)
  else if e =? 116 then Some 9     (* t *)
  else None.

Definition is_high_surrogate (u : N) : bool := (55296 <=? u) && (u <=? 56319).
Definition is_low_surrogate (u : N) : bool := (56320 <=? u) && (u <=? 57343).

Definition push (c : char) (r : option (str * str)) : option (str * str) :=
  match r with
  | Some (t, rest) => Some (c :: t, rest)
  | None => None
  end.

(** [scanstring] in strict mode, from the character after the opening
    quote: the decoded string and what follows the closing quote. *)
Fixpoint scanstring (s : str) : option (str * str) :=
  match s with
  | [] => None
  | c :: r =>
      if c =? 34 then Some ([], r)
      else if c =? 92 then
        match r with
        | [] => None
        | e :: r1 =>
            if e =? 117 then
              match r1 with
              | h1 :: h2 :: h3 :: h4 :: r2 =>
                  match hex4 h1 h2 h3 h4 with
                  | None => None
                  | Some uni =>
                      match r2 with
                      | b :: u :: k1 :: k2 :: k3 :: k4 :: r3 =>
                          if is_high_surrogate uni && (b =? 92) && (u =? 117) then
                            match hex4 k1 k2 k3 k4 with
                            | None => None
                            | Some uni2 =>
                                if is_low_surrogate uni2
                                then push (65536 + ((uni - 55296) * 1024 + (uni2 - 56320)))
                                          (scanstring r3)
                                else push uni (scanstring r2)
                            end
                          else push uni (scanstring r2)
                      | _ => push uni (scanstring r2)
                      end
                  end
              | _ => None
              end
            else
              match unescape e with
              | Some c' => push c' (scanstring r1)
              | None => None
              end
        end
      else if c <? 32 then None
      else push c (scanstring r)
  end.

(** The longest run of decimal digits at the start of [s], and the rest. *)
Fixpoint digits (s : str) : str * str :=
  match s with
  | c :: s' =>
      if is_digit c then let '(d, r) := digits s' in (c :: d, r) else ([], s)
  | [] => ([], [])
  end.

(** [int()] of a run of decimal digits. *)
Definition int_of_digits (d : str) : Z :=
  fold_left (fun acc c => (10 * acc + Z.of_N (c - 48))%Z) d 0%Z.

(** The integer part of [NUMBER_RE]: [0], or a run of digits that does
    not start with [0]. *)
Definition int_part (s : str) : option (str * str) :=
  match s with
  | c :: s' =>
      if c =? 48 then Some ([c], s')
      else if is_digit c then Some (digits s)
      else None
  | [] => None
  end.

(** The optional fraction of [NUMBER_RE]: a dot and at least one digit. *)
Definition frac_part (s : str) : str * str :=
  match s with
  | c :: s' =>
      if c =? 46 then
        match digits s' with
        | ([], _) => ([], s)
        | (d, r) => (c :: d, r)
        end
      else ([], s)
  | [] => ([], s)
  end.

(** The optional exponent of [NUMBER_RE]: [e] or [E], an optional sign
    and at least one digit. *)
Definition exp_part (s : str) : str * str :=
  match s with
  | c :: s' =>
      if (c =? 101) || (c =? 69) then
        match s' with
        | g :: s'' =>
            if (g =? 45) || (g =? 43) then
              match digits s'' with
              | ([], _) => ([], s)
              | (d, r) => (c :: g :: d, r)
              end
            else
              match digits s' with
              | ([], _) => ([], s)
              | (d, r) => (c :: d, r)
              end
        | [] => ([], s)
        end
      else ([], s)
  | [] => ([], s)
  end.

(** A match of [NUMBER_RE]: an [int] without fraction and exponent,
    a [float] otherwise. *)
Definition scan_number (s : str) : option (json * str) :=
  let '(neg, s0) :=
    match s with
    | c :: s' => if c =? 45 then (true, s') else (false, s)
    | [] => (false, s)
    end in
  match int_part s0 with
  | None => None
  | Some (i, r0) =>
      let '(f, r1) := frac_part r0 in
      let '(e, r2) := exp_part r1 in
      match f, e with
      | [], [] =>
          Some (JInt (if neg then (- int_of_digits i)%Z else int_of_digits i), r2)
      | _, _ =>
          Some (JFloat ((if neg then [45] else []) ++ i ++ f ++ e), r2)
      end
  end.

(** [scan_once], with [JSONObject] and [JSONArray]; [fuel] bounds the
    depth of the calls. *)
Fixpoint scan_once (fuel : nat) (s : str) {struct fuel} : option (json * str) :=
  match fuel with
  | O => None
  | S n =>
      match s with
      | [] => None
      | c :: r =>
          if c =? 34 then
            match scanstring r with
            | Some (t, r') => Some (JStr t, r')
            | None => None
            end
          else if c =? 123 then
            match skip_ws r with
            | c1 :: r1 =>
                if c1 =? 125 then Some (JDict [], r1)
                else if c1 =? 34 then object_pairs n r1 []
                else None
            | [] => None
            end
          else if c =? 91 then
            match skip_ws r with
            | c1 :: r1 =>
                if c1 =? 93 then Some (JList [], r1)
                else array_items n (c1 :: r1) []
            | [] => None
            end
          else
            match literal "null" s, literal "true" s, literal "false" s with
            | Some r', _, _ => Some (JNone, r')
            | _, Some r', _ => Some (JBool true, r')
            | _, _, Some r' => Some (JBool false, r')
            | None, None, None =>
                match scan_number s with
                | Some res => Some res
                | None =>
                    match literal "NaN" s, literal "Infinity" s, literal "-Infinity" s with
                    | Some r', _, _ => Some (JFloat (txt "NaN"), r')
                    | _, Some r', _ => Some (JFloat (txt "Infinity"), r')
                    | _, _, Some r' => Some (JFloat (txt "-Infinity"), r')
                    | None, None, None => None
                    end
                end
            end
      end
  end

with object_pairs (fuel : nat) (s : str) (acc : list (str * json)) {struct fuel}
  : option (json * str) :=
  match fuel with
  | O => None
  | S n =>
      match scanstring s with
      | None => None
      | Some (key, r) =>
          match expect 58 (skip_ws r) with
          | None => None
          | Some r1 =>
              match scan_once n (skip_ws r1) with
              | None => None
              | Some (v, r2) =>
                  let acc' := acc ++ [(key, v)] in
                  match skip_ws r2 with
                  | c :: r3 =>
                      if c =? 125 then Some (JDict (dict acc'), r3)
                      else if c =? 44 then
                        match expect 34 (skip_ws r3) with
                        | Some r4 => object_pairs n r4 acc'
                        | None => None
                        end
                      else None
                  | [] => None
                  end
              end
          end
      end
  end

with array_items (fuel : nat) (s : str) (acc : list json) {struct fuel}
  : option (json * str) :=
  match fuel with
  | O => None
  | S n =>
      match scan_once n s with
      | None => None
      | Some (v, r) =>
          let acc' := acc ++ [v] in
          match skip_ws r with
          | c :: r1 =>
              if c =? 93 then Some (JList acc', r1)
              else if c =? 44 then array_items n (skip_ws r1) acc'
              else None
          | [] => None
          end
      end
  end.

(** [json.loads(s)] for a [str]: [None] stands for [JSONDecodeError]. *)
Definition loads (s : str) : option json :=
  if Str.startswith s [65279] then None
  else
    match scan_once (2 * length s + 2) (skip_ws s) with
    | Some (v, r) =>
        match skip_ws r with
        | [] => Some v
        | _ :: _ => None
        end
    | None => None
    end.

End Json.

(** ** The runbook *)

(** The exceptions a statement of the script can raise. *)
Inductive exn : Type :=
  | IndexError
  | JSONDecodeError
  | KeyError (key : str)
  | TypeError
  | NameError (name : string)
  | AutomationAssetNotFound (name : str).

(** One entry of the [groups] list: a [dict] with the keys ["id"],
    ["name"], ["catalog"] and ["type"]. *)
Module Group.
Record t : Type := mk { id : str; name : str; catalog : str; type : str }.
End Group.

(** The calls that leave the script.  A lookup is logged with what it
    returned ([None]: it raised [AutomationAssetNotFound]);
    [serial_number] is [None] when [mmg.main] is called without it. *)
Inductive event : Type :=
  | json_loads (s : str)
  | get_automation_variable (name : str) (returned : option str)
  | environ_set (name value : str)
  | mmg_main (group_list : list Group.t) (serial_number : option json).

(** The process state the script acts on: [os.environ] and the log. *)
Record world : Type := World { environ : gmap str str; log : list event }.

(** A statement: it ends in an exception or a value, in a new world. *)
Definition script (A : Type) : Type := world -> (exn + A) * world.

Definition ret {A : Type} (a : A) : script A := fun w => (inr a, w).

Definition raise {A : Type} (e : exn) : script A := fun w => (inl e, w).

Definition bind {A B : Type} (m : script A) (k : A -> script B) : script B :=
  fun w =>
    match m w with
    | (inr a, w') => k a w'
    | (inl e, w') => (inl e, w')
    end.

Definition emit (ev : event) : script unit :=
  fun w => (inr tt, World (environ w) (log w ++ [ev])).

Declare Scope script_scope.
Delimit Scope script_scope with script.
Notation "x <- m ;; k" := (bind m (fun x => k))
  (at level 100, m at next level, right associativity) : script_scope.
Notation "m ;; k" := (bind m (fun _ => k))
  (at level 100, right associativity) : script_scope.
Local Open Scope script_scope.

(** [json.loads(s)] as a statement. *)
Definition do_json_loads (s : str) : script json :=
  emit (json_loads s) ;;
  match Json.loads s with
  | Some v => ret v
  | None => raise JSONDecodeError
  end.

(** [o[k]] for a string [k]: defined on a [dict] that has the key. *)
Definition getitem (o : json) (k : str) : script json :=
  match o with
  | JDict d =>
      match Json.dict_get k d with
      | Some v => ret v
      | None => raise (KeyError k)
      end
  | _ => raise TypeError
  end.

(** [l[i]] on a list. *)
Definition index {A : Type} (l : list A) (i : nat) : script A :=
  match l !! i with
  | Some a => ret a
  | None => raise IndexError
  end.

(** The local variables [webhook] and [serial]; [serial] is unbound
    ([None]) until line 18 binds it. *)
Record locals : Type := Locals { webhook : bool; serial : option json }.

(** Lines 11 to 18: the webhook flag and the serial of the payload. *)
Definition read_webhook (argv : list str) : script locals :=
  if (1 <? length argv)%nat then
    arg <- index argv 1 ;;
    let data := Str.split 44 arg in
    field <- index data 1 ;;
    let w_data := Str.replace (txt "RequestBody:") (txt "") field in
    webhook_data <- do_json_loads w_data ;;
    serial <- getitem webhook_data (txt "serial") ;;
    ret (Locals true (Some serial))
  else ret (Locals false None).

Section Runbook.

(** The variables of the Automation account, as
    [automationassets.get_automation_variable] sees them: [None] where
    the call raises [AutomationAssetNotFound]. *)
Variable store : str -> option str.

(** [os.environ[name] = automationassets.get_automation_variable(name)]. *)
Definition publish (name : str) : script unit :=
  fun w =>
    let w' := World (environ w)
                    (log w ++ [get_automation_variable name (store name)]) in
    match store name with
    | None => (inl (AutomationAssetNotFound name), w')
    | Some value =>
        (inr tt, World (<[name := value]> (environ w'))
                       (log w' ++ [environ_set name value]))
    end.

(** Lines 21 to 25. *)
Definition get_variables : script unit :=
  publish (txt "CLIENT_ID") ;;
  publish (txt "CLIENT_SECRET") ;;
  publish (txt "CONTAINER_NAME") ;;
  publish (txt "AZURE_STORAGE_CONNECTION_STRING") ;;
  publish (txt "TENANT_NAME").

(** Lines 27 to 40. *)
Definition groups : list Group.t :=
  [ Group.mk (txt "id_of_aad_group_1") (txt "name_of_manifest_1")
             (txt "catalog_name_1") (txt "type_of_group_1");
    Group.mk (txt "id_of_aad_group_2") (txt "name_of_manifest_2")
             (txt "catalog_name_2") (txt "type_of_group_2") ].

(** Reading a local variable. *)
Definition local {A : Type} (name : string) (v : option A) : script A :=
  match v with
  | Some a => ret a
  | None => raise (NameError name)
  end.

(** Lines 42 to 45.  The script ends with the call of [mmg.main]. *)
Definition dispatch (l : locals) : script unit :=
  if webhook l then
    s <- local "serial" (serial l) ;;
    emit (mmg_main groups (Some s))
  else emit (mmg_main groups None).

(** The whole script. *)
Definition runbook (argv : list str) : script unit :=
  l <- read_webhook argv ;;
  get_variables ;;
  dispatch l.

(** A run from the environment [env]. *)
Definition run (env : gmap str str) (argv : list str) : (exn + unit) * world :=
  runbook argv (World env []).

End Runbook.

(** *** Reading a log *)

(** The arguments of the calls of [mmg.main], in order. *)
Definition calls (l : list event) : list (list Group.t * option json) :=
  omap (fun ev => match ev with
                  | mmg_main g s => Some (g, s)
                  | _ => None
                  end) l.

(** The lookups, in order, with what each returned. *)
Definition lookups (l : list event) : list (str * option str) :=
  omap (fun ev => match ev with
                  | get_automation_variable n r => Some (n, r)
                  | _ => None
                  end) l.

(** The payloads given to [json.loads], in order. *)
Definition payloads (l : list event) : list str :=
  omap (fun ev => match ev with
                  | json_loads s => Some s
                  | _ => None
                  end) l.

(** The lookups and the assignments to [os.environ], in order. *)
Definition is_secret_event (ev : event) : bool :=
  match ev with
  | get_automation_variable _ _ | environ_set _ _ => true
  | _ => false
  end.

Definition secret_events (l : list event) : list event :=
  List.filter is_secret_event l.



(** The five variable names, in the order of lines 21 to 25. *)
Definition secret_names : list str :=
  [ txt "CLIENT_ID"; txt "CLIENT_SECRET"; txt "CONTAINER_NAME";
    txt "AZURE_STORAGE_CONNECTION_STRING"; txt "TENANT_NAME" ].

(** *** The specification's terms *)





(** The local variables after lines 11 to 18 of a run, when they end
    without an exception. *)
Definition locals_of (argv : list str) : option locals :=
  match fst (read_webhook argv (World ∅ [])) with
  | inr l => Some l
  | inl _ => None
  end.


(** *** Outcomes *)

(** What lines 11 to 18 do, case by case: the outcome and the calls
    logged on the way. *)
Inductive webhook_outcome (argv : list str) : exn + locals -> list event -> Prop :=
  | no_argument :
      argv !! 1%nat = None ->
      webhook_outcome argv (inr (Locals false None)) []
  | one_field arg :
      argv !! 1%nat = Some arg ->
      Str.split 44 arg !! 1%nat = None ->
      webhook_outcome argv (inl IndexError) []
  | bad_json arg field :
      argv !! 1%nat = Some arg ->
      Str.split 44 arg !! 1%nat = Some field ->
      Json.loads (Str.replace (txt "RequestBody:") (txt "") field) = None ->
      webhook_outcome argv (inl JSONDecodeError)
        [json_loads (Str.replace (txt "RequestBody:") (txt "") field)]
  | not_a_dict arg field v :
      argv !! 1%nat = Some arg ->
      Str.split 44 arg !! 1%nat = Some field ->
      Json.loads (Str.replace (txt "RequestBody:") (txt "") field) = Some v ->
      (forall d, v <> JDict d) ->
      webhook_outcome argv (inl TypeError)
        [json_loads (Str.replace (txt "RequestBody:") (txt "") field)]
  | no_serial arg field d :
      argv !! 1%nat = Some arg ->
      Str.split 44 arg !! 1%nat = Some field ->
      Json.loads (Str.replace (txt "RequestBody:") (txt "") field) = Some (JDict d) ->
      Json.dict_get (txt "serial") d = None ->
      webhook_outcome argv (inl (KeyError (txt "serial")))
        [json_loads (Str.replace (txt "RequestBody:") (txt "") field)]
  | with_serial arg field d v :
      argv !! 1%nat = Some arg ->
      Str.split 44 arg !! 1%nat = Some field ->
      Json.loads (Str.replace (txt "RequestBody:") (txt "") field) = Some (JDict d) ->
      Json.dict_get (txt "serial") d = Some v ->
      webhook_outcome argv (inr (Locals true (Some v)))
        [json_loads (Str.replace (txt "RequestBody:") (txt "") field)].

Section Lookups.

Variable store : str -> option str.

(** The names that resolve before the first miss, with their values. *)
Fixpoint resolved (names : list str) : list (str * str) :=
  match names with
  | [] => []
  | n :: ns =>
      match store n with
      | Some v => (n, v) :: resolved ns
      | None => []
      end
  end.

(** The first name that does not resolve. *)
Fixpoint missing (names : list str) : option str :=
  match names with
  | [] => None
  | n :: ns =>
      match store n with
      | Some _ => missing ns
      | None => Some n
      end
  end.

(** The log of a sequence of lookups that stops at the first miss. *)
Definition published (kv : str * str) : list event :=
  [get_automation_variable (fst kv) (Some (snd kv)); environ_set (fst kv) (snd kv)].

Definition secret_log (names : list str) : list event :=
  flat_map published (resolved names) ++
  match missing names with
  | Some n => [get_automation_variable n None]
  | None => []
  end.

(** The environment after a sequence of assignments. *)
Fixpoint set_all (env : gmap str str) (kvs : list (str * str)) : gmap str str :=
  match kvs with
  | [] => env
  | kv :: kvs' => set_all (<[fst kv := snd kv]> env) kvs'
  end.

(** [publish] over a list of names. *)
Fixpoint publish_all (names : list str) : script unit :=
  match names with
  | [] => ret tt
  | n :: ns => publish store n ;; publish_all ns
  end.

Definition secrets_result (names : list str) : exn + unit :=
  match missing names with
  | Some n => inl (AutomationAssetNotFound n)
  | None => inr tt
  end.

(** The number of lookups made over [names]. *)
Definition looked_up (names : list str) : nat :=
  length (lookups (secret_log names)).

End Lookups.

(** The assignments to [os.environ], in order. *)
Definition assignments (l : list event) : list (str * str) :=
  omap (fun ev => match ev with
                  | environ_set n v => Some (n, v)
                  | _ => None
                  end) l.

(** A lookup, followed by the assignment of what it returned. *)
Definition lookup_and_publish (store : str -> option str) (n : str) : list event :=
  get_automation_variable n (store n) ::
  match store n with
  | Some v => [environ_set n v]
  | None => []
  end.

(** The three ways a run ends: in lines 11 to 18, at a lookup, or with
    the call of [mmg.main]. *)
Inductive run_outcome (store : str -> option str) (env : gmap str str)
    (argv : list str) : (exn + unit) * world -> Prop :=
  | trigger_error e evs :
      webhook_outcome argv (inl e) evs ->
      run_outcome store env argv (inl e, World env evs)
  | secret_error l evs n :
      webhook_outcome argv (inr l) evs ->
      missing store secret_names = Some n ->
      run_outcome store env argv
        (inl (AutomationAssetNotFound n),
         World (set_all env (resolved store secret_names))
               (evs ++ secret_log store secret_names))
  | dispatched l evs :
      webhook_outcome argv (inr l) evs ->
      missing store secret_names = None ->
      run_outcome store env argv
        (inr tt,
         World (set_all env (resolved store secret_names))
               (evs ++ secret_log store secret_names ++ [mmg_main groups (serial l)])).

(** ** Example runs *)

Module Examples.

(** A store that holds all five variables. *)
Definition full_store : str -> option str :=
  fun n => if bool_decide (n ∈ secret_names) then Some (txt "value of " ++ n) else None.


(** [full_store] without the variable [m]. *)
Definition store_without (m : string) : str -> option str :=
  fun n => if bool_decide (n = txt m) then None else full_store n.

(** [sys.argv] of a scheduled run and of a webhook run. *)
Definition scheduled : list str := [txt "runbooktemplate.py"].

Definition triggered (arg : str) : list str := [txt "runbooktemplate.py"; arg].

(** [ignored,RequestBody:{"serial":"ABC123"}] *)
Definition abc123 : str :=
  txt "ignored,RequestBody:{" ++ quoted "serial" ++ txt ":" ++ quoted "ABC123" ++ txt "}".

(** [a,RequestBody:{"serial":123}] *)
Definition numeric : str :=
  txt "a,RequestBody:{" ++ quoted "serial" ++ txt ":123}".




End Examples.

(** * Properties *)

Arguments txt : simpl never.

(** ** The monad *)

Lemma bind_inr {A B : Type} (m : script A) (k : A -> script B) w a w' :
  m w = (inr a, w') -> bind m k w = k a w'.
Proof. intros H. unfold bind. now rewrite H. Qed.

Lemma bind_inl {A B : Type} (m : script A) (k : A -> script B) w e w' :
  m w = (inl e, w') -> bind m k w = (inl e, w').
Proof. intros H. unfold bind. now rewrite H. Qed.

(** ** The decoder *)

Section Decoder.

Import Json.

Lemma startswith_length s old :
  Str.startswith s old = true -> (length old <= length s)%nat.
Proof.
  revert s. induction old as [|o old IH]; intros s; [cbn; lia |].
  destruct s as [|c s]; [discriminate |]. cbn [Str.startswith length].
  intros H. apply andb_true_iff in H as [_ H]. apply IH in H. lia.
Qed.

Lemma skip_ws_length s : (length (skip_ws s) <= length s)%nat.
Proof.
  induction s as [|c s IH]; [reflexivity |].
  cbn [skip_ws]. destruct (is_ws c); cbn [length]; lia.
Qed.

Lemma expect_length c s r : expect c s = Some r -> length s = S (length r).
Proof.
  destruct s as [|c' s]; [discriminate |]. cbn [expect].
  destruct (c' =? c); [| discriminate]. now intros [= ->].
Qed.

Lemma literal_length w s r :
  txt w <> [] -> literal w s = Some r -> (length r < length s)%nat.
Proof.
  intros Hw. unfold literal.
  destruct (Str.startswith s (txt w)) eqn:Hst; [| discriminate].
  intros [= <-]. apply startswith_length in Hst. rewrite length_drop.
  destruct (txt w); [contradiction | cbn [length] in *; lia].
Qed.

Lemma push_Some c x t r :
  push c x = Some (t, r) -> exists t', x = Some (t', r) /\ t = c :: t'.
Proof.
  destruct x as [[t' r']|]; [| discriminate]. cbn. intros [= <- <-]. eauto.
Qed.

Lemma scanstring_length s : forall t r,
  scanstring s = Some (t, r) -> (length r < length s)%nat.
Proof.
  remember (length s) as n eqn:Hn. revert s Hn.
  induction n as [n IH] using lt_wf_ind. intros s -> t r.
  assert (forall c s' t r, (length s' < length s)%nat ->
            push c (scanstring s') = Some (t, r) -> (length r < length s)%nat) as Hpush.
  { intros c s' t' r' Hlt H. apply push_Some in H as (t'' & H & _).
    eapply IH in H; [| exact Hlt | reflexivity]. lia. }
  destruct s as [|c s0]; [discriminate |]. cbn [scanstring].
  repeat match goal with
         | |- context [match ?x with _ => _ end] => destruct x eqn:?
         | |- context [if ?x then _ else _] => destruct x eqn:?
         end;
    try discriminate;
    try (intros [= <- <-]; cbn [length]; lia);
    try (apply Hpush; cbn [length]; lia).
Qed.

Lemma digits_length s d r :
  digits s = (d, r) -> length s = (length d + length r)%nat.
Proof.
  revert d r. induction s as [|c s IH]; intros d r; cbn [digits].
  - now intros [= <- <-].
  - destruct (is_digit c).
    + destruct (digits s) as [d' r'] eqn:Hd. intros [= <- <-].
      cbn [length]. rewrite (IH _ _ eq_refl). lia.
    + now intros [= <- <-].
Qed.

Lemma int_part_length s i r :
  int_part s = Some (i, r) -> (length r < length s)%nat.
Proof.
  destruct s as [|c s]; [discriminate |]. unfold int_part.
  destruct (c =? 48); [intros [= <- <-]; cbn; lia |].
  destruct (is_digit c) eqn:Hc; [| discriminate].
  cbn [digits]. rewrite Hc.
  destruct (digits s) as [d' r'] eqn:Hd. apply digits_length in Hd.
  intros [= <- <-]. cbn [length]. lia.
Qed.

Lemma frac_part_length s f r :
  frac_part s = (f, r) -> (length r <= length s)%nat.
Proof.
  destruct s as [|c s]; [now intros [= <- <-] |]. unfold frac_part.
  destruct (c =? 46); [| now intros [= <- <-]].
  destruct (digits s) as [d r'] eqn:Hd. apply digits_length in Hd.
  destruct d; intros [= <- <-]; cbn [length] in *; lia.
Qed.

Lemma exp_part_length s e r :
  exp_part s = (e, r) -> (length r <= length s)%nat.
Proof.
  destruct s as [|c s]; [now intros [= <- <-] |]. unfold exp_part.
  destruct ((c =? 101) || (c =? 69)); [| now intros [= <- <-]].
  destruct s as [|g s']; [now intros [= <- <-] |].
  destruct ((g =? 45) || (g =? 43)).
  - destruct (digits s') as [d r'] eqn:Hd. apply digits_length in Hd.
    destruct d; intros [= <- <-]; cbn [length] in *; lia.
  - destruct (digits (g :: s')) as [d r'] eqn:Hd. apply digits_length in Hd.
    destruct d; intros [= <- <-]; cbn [length] in *; lia.
Qed.

Lemma scan_number_length s v r :
  scan_number s = Some (v, r) -> (length r < length s)%nat.
Proof.
  unfold scan_number.
  assert (exists neg s0, (match s with
                          | c :: s' => if c =? 45 then (true, s') else (false, s)
                          | [] => (false, s)
                          end) = (neg, s0) /\ (length s0 <= length s)%nat)
    as (neg & s0 & -> & Hs0).
  { destruct s as [|c s']; [eexists _, _; split; [reflexivity | lia] |].
    destruct (c =? 45); eexists _, _; (split; [reflexivity | cbn; lia]). }
  destruct (int_part s0) as [[i r0]|] eqn:Hi; [| discriminate].
  apply int_part_length in Hi.
  destruct (frac_part r0) as [f r1] eqn:Hf. apply frac_part_length in Hf.
  destruct (exp_part r1) as [e r2] eqn:He. apply exp_part_length in He.
  destruct f, e; intros [= <- <-]; lia.
Qed.

(** Every value takes at least one character. *)
Lemma scan_progress n :
  (forall s v r, scan_once n s = Some (v, r) -> (length r < length s)%nat) /\
  (forall s acc v r, object_pairs n s acc = Some (v, r) -> (length r < length s)%nat) /\
  (forall s acc v r, array_items n s acc = Some (v, r) -> (length r < length s)%nat).
Proof.
  induction n as [|n (IHs & IHo & IHa)]; [repeat split; discriminate |].
  split; [| split].
  - intros s v r. cbn [scan_once].
    destruct s as [|c s0]; [discriminate |].
    destruct (c =? 34).
    { destruct (scanstring s0) as [[t r']|] eqn:Hs; [| discriminate].
      apply scanstring_length in Hs. intros [= <- <-]. cbn [length]. lia. }
    destruct (c =? 123).
    { pose proof (skip_ws_length s0) as Hw.
      destruct (skip_ws s0) as [|c1 r1]; [discriminate |].
      destruct (c1 =? 125); [intros [= <- <-]; cbn [length] in *; lia |].
      destruct (c1 =? 34); [| discriminate].
      intros H. apply IHo in H. cbn [length] in *. lia. }
    destruct (c =? 91).
    { pose proof (skip_ws_length s0) as Hw.
      destruct (skip_ws s0) as [|c1 r1]; [discriminate |].
      destruct (c1 =? 93); [intros [= <- <-]; cbn [length] in *; lia |].
      intros H. apply IHa in H. cbn [length] in *. lia. }
    destruct (literal "null" (c :: s0)) as [r'|] eqn:H1.
    { apply literal_length in H1; [| discriminate]. intros [= <- <-]. exact H1. }
    destruct (literal "true" (c :: s0)) as [r'|] eqn:H2.
    { apply literal_length in H2; [| discriminate]. intros [= <- <-]. exact H2. }
    destruct (literal "false" (c :: s0)) as [r'|] eqn:H3.
    { apply literal_length in H3; [| discriminate]. intros [= <- <-]. exact H3. }
    destruct (scan_number (c :: s0)) as [[v' r']|] eqn:H4.
    { apply scan_number_length in H4. intros [= <- <-]. exact H4. }
    destruct (literal "NaN" (c :: s0)) as [r'|] eqn:H5.
    { apply literal_length in H5; [| discriminate]. intros [= <- <-]. exact H5. }
    destruct (literal "Infinity" (c :: s0)) as [r'|] eqn:H6.
    { apply literal_length in H6; [| discriminate]. intros [= <- <-]. exact H6. }
    destruct (literal "-Infinity" (c :: s0)) as [r'|] eqn:H7; [| discriminate].
    apply literal_length in H7; [| discriminate]. intros [= <- <-]. exact H7.
  - intros s acc v r. cbn [object_pairs].
    destruct (scanstring s) as [[key r0]|] eqn:Hk; [| discriminate].
    apply scanstring_length in Hk.
    pose proof (skip_ws_length r0) as Hw0.
    destruct (expect 58 (skip_ws r0)) as [r1|] eqn:He; [| discriminate].
    apply expect_length in He.
    pose proof (skip_ws_length r1) as Hw1.
    destruct (scan_once n (skip_ws r1)) as [[v' r2]|] eqn:Hv; [| discriminate].
    apply IHs in Hv.
    pose proof (skip_ws_length r2) as Hw2.
    destruct (skip_ws r2) as [|c r3]; [discriminate |].
    destruct (c =? 125); [intros [= <- <-]; cbn [length] in *; lia |].
    destruct (c =? 44); [| discriminate].
    pose proof (skip_ws_length r3) as Hw3.
    destruct (expect 34 (skip_ws r3)) as [r4|] eqn:He'; [| discriminate].
    apply expect_length in He'.
    intros H. apply IHo in H. cbn [length] in *. lia.
  - intros s acc v r. cbn [array_items].
    destruct (scan_once n s) as [[v' r0]|] eqn:Hv; [| discriminate].
    apply IHs in Hv.
    pose proof (skip_ws_length r0) as Hw0.
    destruct (skip_ws r0) as [|c r1]; [discriminate |].
    destruct (c =? 93); [intros [= <- <-]; cbn [length] in *; lia |].
    destruct (c =? 44); [| discriminate].
    pose proof (skip_ws_length r1) as Hw1.
    intros H. apply IHa in H. cbn [length] in *. lia.
Qed.

(** With enough fuel the result does not depend on the fuel. *)
Lemma scan_fuel s :
  (forall n m, (2 * length s + 2 <= n)%nat -> (2 * length s + 2 <= m)%nat ->
               scan_once n s = scan_once m s) /\
  (forall n m acc, (2 * length s + 3 <= n)%nat -> (2 * length s + 3 <= m)%nat ->
                   object_pairs n s acc = object_pairs m s acc) /\
  (forall n m acc, (2 * length s + 3 <= n)%nat -> (2 * length s + 3 <= m)%nat ->
                   array_items n s acc = array_items m s acc).
Proof.
  remember (length s) as len eqn:Hlen. revert s Hlen.
  induction len as [len IH] using lt_wf_ind. intros s ->.
  assert (forall n m, (2 * length s + 2 <= n)%nat -> (2 * length s + 2 <= m)%nat ->
                      scan_once n s = scan_once m s) as Hscan.
  { intros [|n] [|m] Hn Hm; try lia. cbn [scan_once].
    destruct s as [|c s0]; [reflexivity |]. cbn [length] in *.
    destruct (c =? 34); [reflexivity |].
    destruct (c =? 123).
    { pose proof (skip_ws_length s0) as Hw.
      destruct (skip_ws s0) as [|c1 r1]; [reflexivity |]. cbn [length] in Hw.
      destruct (c1 =? 125); [reflexivity |].
      destruct (c1 =? 34); [| reflexivity].
      apply (IH (length r1)); [lia | reflexivity | lia | lia]. }
    destruct (c =? 91); [| reflexivity].
    pose proof (skip_ws_length s0) as Hw.
    destruct (skip_ws s0) as [|c1 r1]; [reflexivity |]. cbn [length] in Hw.
    destruct (c1 =? 93); [reflexivity |].
    apply (IH (length (c1 :: r1))); cbn [length]; [lia | reflexivity | lia | lia]. }
  split; [exact Hscan | split].
  - intros [|n] [|m] acc Hn Hm; try lia. cbn [object_pairs].
    destruct (scanstring s) as [[key r0]|] eqn:Hk; [| reflexivity].
    apply scanstring_length in Hk.
    pose proof (skip_ws_length r0) as Hw0.
    destruct (expect 58 (skip_ws r0)) as [r1|] eqn:He; [| reflexivity].
    apply expect_length in He.
    pose proof (skip_ws_length r1) as Hw1.
    assert (scan_once n (skip_ws r1) = scan_once m (skip_ws r1)) as ->
      by (apply (IH (length (skip_ws r1))); [lia | reflexivity | lia | lia]).
    destruct (scan_once m (skip_ws r1)) as [[v r2]|] eqn:Hv; [| reflexivity].
    apply (proj1 (scan_progress m)) in Hv.
    pose proof (skip_ws_length r2) as Hw2.
    destruct (skip_ws r2) as [|c r3]; [reflexivity |]. cbn [length] in Hw2.
    destruct (c =? 125); [reflexivity |].
    destruct (c =? 44); [| reflexivity].
    pose proof (skip_ws_length r3) as Hw3.
    destruct (expect 34 (skip_ws r3)) as [r4|] eqn:He'; [| reflexivity].
    apply expect_length in He'.
    apply (IH (length r4)); [lia | reflexivity | lia | lia].
  - intros [|n] [|m] acc Hn Hm; try lia. cbn [array_items].
    rewrite (Hscan n m) by lia.
    destruct (scan_once m s) as [[v r0]|] eqn:Hv; [| reflexivity].
    apply (proj1 (scan_progress m)) in Hv.
    pose proof (skip_ws_length r0) as Hw0.
    destruct (skip_ws r0) as [|c r1]; [reflexivity |]. cbn [length] in Hw0.
    destruct (c =? 93); [reflexivity |].
    destruct (c =? 44); [| reflexivity].
    pose proof (skip_ws_length r1) as Hw1.
    apply (IH (length (skip_ws r1))); [lia | reflexivity | lia | lia].
Qed.

(** [loads] gives the decoder all the fuel it can use. *)
Lemma loads_fuel s n :
  (2 * length s + 2 <= n)%nat ->
  scan_once n (skip_ws s) = scan_once (2 * length s + 2) (skip_ws s).
Proof.
  intros Hn. pose proof (skip_ws_length s).
  apply (proj1 (scan_fuel (skip_ws s))); lia.
Qed.

End Decoder.

(** ** The argument *)

Lemma argument_present (argv : list str) :
  (1 <? length argv)%nat = true <-> is_Some (argv !! 1%nat).
Proof.
  rewrite Nat.ltb_lt, lookup_lt_is_Some. reflexivity.
Qed.

Lemma read_webhook_outcome argv w :
  exists r evs,
    read_webhook argv w = (r, World (environ w) (log w ++ evs)) /\
    webhook_outcome argv r evs.
Proof.
  destruct w as [env lg]. unfold read_webhook.
  destruct (1 <? length argv)%nat eqn:Hlen.
  - apply argument_present in Hlen. destruct Hlen as [arg Harg].
    unfold bind at 1. unfold index at 1. rewrite Harg. cbn [ret].
    destruct (Str.split 44 arg !! 1%nat) as [field|] eqn:Hfield.
    + unfold bind at 1. unfold index at 1. rewrite Hfield. cbn [ret].
      unfold bind at 1. unfold do_json_loads, bind, emit. cbn [environ log].
      destruct (Json.loads (Str.replace (txt "RequestBody:") (txt "") field))
        as [v|] eqn:Hloads; cbn [ret raise].
      * destruct v as [ | b | z | f | s | items | d ]; cbn [getitem raise];
          try (eexists _, _; split; [reflexivity | eapply not_a_dict; eauto; congruence]).
        destruct (Json.dict_get (txt "serial") d) as [v|] eqn:Hget; cbn [ret raise].
        -- eexists _, _; split; [reflexivity | eapply with_serial; eauto].
        -- eexists _, _; split; [reflexivity | eapply no_serial; eauto].
      * eexists _, _; split; [reflexivity | eapply bad_json; eauto].
    + unfold bind at 1. unfold index at 1. rewrite Hfield. cbn [raise].
      exists (inl IndexError), []. rewrite app_nil_r.
      split; [reflexivity | eapply one_field; eauto].
  - exists (inr (Locals false None)), []. rewrite app_nil_r.
    split; [reflexivity |]. apply no_argument.
    destruct (argv !! 1%nat) eqn:E; [| reflexivity].
    assert (is_Some (argv !! 1%nat)) as H by eauto.
    apply argument_present in H. congruence.
Qed.

Lemma webhook_outcome_det argv r evs r' evs' :
  webhook_outcome argv r evs -> webhook_outcome argv r' evs' ->
  r = r' /\ evs = evs'.
Proof.
  intros H H'.
  destruct H; destruct H'; simplify_eq; try (split; reflexivity);
    try congruence;
    match goal with
    | Hn : forall d, _ <> JDict d |- _ => exfalso; eapply Hn; reflexivity
    end.
Qed.

(** Lines 11 to 18 log calls of [json.loads] only. *)
Lemma webhook_outcome_log argv r evs :
  webhook_outcome argv r evs -> calls evs = [] /\ lookups evs = [] /\
                                secret_events evs = [].
Proof. intros H. destruct H; repeat split; reflexivity. Qed.

(** ** The secrets *)

Section Secrets.

Variable store : str -> option str.

Lemma publish_all_spec names : forall w,
  publish_all store names w =
  (secrets_result store names,
   World (set_all (environ w) (resolved store names)) (log w ++ secret_log store names)).
Proof.
  induction names as [|n ns IH]; intros [env lg].
  - cbn. now rewrite app_nil_r.
  - cbn [publish_all]. unfold bind, publish, secrets_result, secret_log.
    cbn [resolved missing environ log].
    destruct (store n) as [v|] eqn:Hn.
    + rewrite IH. cbn [environ log set_all flat_map published fst snd].
      unfold secrets_result, secret_log.
      f_equal. f_equal. rewrite <- !app_assoc. reflexivity.
    + reflexivity.
Qed.

Lemma bind_ret_tt (m : script unit) w : bind m (fun _ => ret tt) w = m w.
Proof. unfold bind, ret. destruct (m w) as [[e|[]] w']; reflexivity. Qed.

Lemma bind_ext {A B : Type} (m : script A) (k k' : A -> script B) w :
  (forall a w', k a w' = k' a w') -> bind m k w = bind m k' w.
Proof. intros H. unfold bind. destruct (m w) as [[e|a] w']; [reflexivity | apply H]. Qed.

(** Lines 21 to 25 are [publish] over the five names. *)
Lemma get_variables_publish_all w :
  get_variables store w = publish_all store secret_names w.
Proof.
  unfold get_variables, secret_names. cbn [publish_all].
  repeat (apply bind_ext; intros [] ?).
  symmetry. apply bind_ret_tt.
Qed.

Lemma get_variables_spec w :
  get_variables store w =
  (secrets_result store secret_names,
   World (set_all (environ w) (resolved store secret_names))
         (log w ++ secret_log store secret_names)).
Proof. rewrite get_variables_publish_all. apply publish_all_spec. Qed.

(** *** The resolved prefix *)

Lemma resolved_names names :
  map fst (resolved store names) = take (length (resolved store names)) names.
Proof.
  induction names as [|n ns IH]; [reflexivity |].
  cbn [resolved]. destruct (store n); [| reflexivity].
  cbn. now rewrite <- IH.
Qed.

Lemma resolved_values names n v :
  (n, v) ∈ resolved store names -> store n = Some v.
Proof.
  induction names as [|m ns IH]; cbn [resolved].
  - intros H. inversion H.
  - destruct (store m) as [u|] eqn:Hm.
    + intros H. apply elem_of_cons in H as [H|H]; [congruence | auto].
    + intros H. inversion H.
Qed.

Lemma missing_None names :
  missing store names = None <-> forall n, n ∈ names -> is_Some (store n).
Proof.
  induction names as [|m ns IH]; cbn [missing].
  - split; [intros _ n H; inversion H | reflexivity].
  - destruct (store m) as [u|] eqn:Hm.
    + rewrite IH. split.
      * intros H n Hn. apply elem_of_cons in Hn as [->|Hn]; [eauto | auto].
      * intros H n Hn. apply H. now apply list_elem_of_further.
    + split; [discriminate |].
      intros H. destruct (H m) as [u Hu]; [apply list_elem_of_here | congruence].
Qed.

Lemma missing_None_resolved names :
  missing store names = None -> map fst (resolved store names) = names.
Proof.
  induction names as [|m ns IH]; cbn [missing resolved]; [reflexivity |].
  destruct (store m); [| discriminate].
  intros H. cbn. now rewrite IH.
Qed.

Lemma missing_Some names n :
  missing store names = Some n ->
  names !! length (resolved store names) = Some n /\ store n = None.
Proof.
  induction names as [|m ns IH]; cbn [missing resolved]; [discriminate |].
  destruct (store m) as [u|] eqn:Hm.
  - intros H. cbn. auto.
  - intros H. cbn. split; congruence.
Qed.

(** *** The log of the lookups *)

Lemma calls_secret_log names : calls (secret_log store names) = [].
Proof.
  unfold secret_log, calls. rewrite omap_app.
  assert (forall kvs, omap (fun ev => match ev with
                                     | mmg_main g s => Some (g, s)
                                     | _ => None
                                     end) (flat_map published kvs) = []) as ->.
  { induction kvs as [|kv kvs IH]; [reflexivity | cbn; exact IH]. }
  destruct (missing store names); reflexivity.
Qed.

Lemma lookups_secret_log names :
  lookups (secret_log store names) =
  map (fun kv => (fst kv, Some (snd kv))) (resolved store names) ++
  match missing store names with
  | Some n => [(n, None)]
  | None => []
  end.
Proof.
  unfold secret_log, lookups. rewrite omap_app. f_equal.
  - induction (resolved store names) as [|kv kvs IH]; [reflexivity |].
    cbn. f_equal. exact IH.
  - destruct (missing store names); reflexivity.
Qed.

Lemma secret_events_secret_log names :
  secret_events (secret_log store names) = secret_log store names.
Proof.
  unfold secret_log, secret_events. rewrite List.filter_app. f_equal.
  - induction (resolved store names) as [|kv kvs IH]; [reflexivity |].
    cbn. do 2 f_equal. exact IH.
  - destruct (missing store names); reflexivity.
Qed.

(** *** The environment *)

Lemma set_all_notin env kvs n :
  n ∉ map fst kvs -> set_all env kvs !! n = env !! n.
Proof.
  revert env. induction kvs as [|kv kvs IH]; intros env Hn; [reflexivity |].
  cbn [set_all]. cbn in Hn. apply not_elem_of_cons in Hn as [Hne Hn].
  rewrite IH by exact Hn. now apply lookup_insert_ne.
Qed.

Lemma set_all_in env kvs n :
  n ∈ map fst kvs -> (forall m v, (m, v) ∈ kvs -> store m = Some v) ->
  set_all env kvs !! n = store n.
Proof.
  revert env. induction kvs as [|kv kvs IH]; intros env Hn Hst.
  - inversion Hn.
  - cbn [set_all].
    destruct (decide (n ∈ map fst kvs)) as [Hin|Hout].
    + apply IH; [exact Hin |]. intros m v Hm. apply Hst. now apply list_elem_of_further.
    + rewrite set_all_notin by exact Hout.
      cbn in Hn. apply elem_of_cons in Hn as [-> | Hn]; [| contradiction].
      rewrite lookup_insert_eq. symmetry. apply Hst.
      destruct kv; apply list_elem_of_here.
Qed.

End Secrets.

(** ** The whole run *)

Lemma run_cases store env argv :
  run_outcome store env argv (run store env argv).
Proof.
  unfold run, runbook.
  destruct (read_webhook_outcome argv (World env [])) as (r & evs & Hr & Ho).
  cbn [environ log app] in Hr.
  destruct r as [e|l].
  - rewrite (bind_inl _ _ _ _ _ Hr). now apply trigger_error.
  - rewrite (bind_inr _ _ _ _ _ Hr).
    unfold bind at 1. rewrite get_variables_spec. cbn [environ log].
    unfold secrets_result.
    destruct (missing store secret_names) as [n|] eqn:Hmiss.
    + now apply secret_error with (l := l).
    + replace (dispatch l _) with
        (inr tt : exn + unit,
         World (set_all env (resolved store secret_names))
               (evs ++ secret_log store secret_names ++ [mmg_main groups (serial l)])).
      * now apply dispatched.
      * inversion Ho; subst; unfold dispatch; cbn [webhook serial];
          unfold local, bind, ret, emit; cbn [environ log];
          now rewrite <- app_assoc.
Qed.

Lemma locals_of_outcome argv r evs :
  webhook_outcome argv r evs ->
  locals_of argv = match r with inr l => Some l | inl _ => None end.
Proof.
  intros Ho. unfold locals_of.
  destruct (read_webhook_outcome argv (World ∅ [])) as (r' & evs' & Hr & Ho').
  rewrite Hr. cbn [fst].
  destruct (webhook_outcome_det _ _ _ _ _ Ho Ho') as [-> _]. reflexivity.
Qed.

Lemma calls_dispatched store evs s :
  calls evs = [] ->
  calls (evs ++ secret_log store secret_names ++ [mmg_main groups s]) = [(groups, s)].
Proof.
  intros H. unfold calls in *. rewrite !omap_app, H.
  fold (calls (secret_log store secret_names)). rewrite calls_secret_log.
  reflexivity.
Qed.

Lemma calls_secret_error store evs :
  calls evs = [] -> calls (evs ++ secret_log store secret_names) = [].
Proof.
  intros H. unfold calls in *. rewrite omap_app, H.
  fold (calls (secret_log store secret_names)). now rewrite calls_secret_log.
Qed.



(** ** Single-device runs *)




(** ** Fleet-wide runs *)




(** ** Failing lookups *)

Lemma lookups_app l1 l2 : lookups (l1 ++ l2) = lookups l1 ++ lookups l2.
Proof. apply omap_app. Qed.

Lemma resolved_lookup_Some store names n r :
  (n, r) ∈ map (fun kv : str * str => (fst kv, Some (snd kv))) (resolved store names) ->
  r <> None.
Proof.
  intros H. apply list_elem_of_fmap in H as (kv & [= -> ->] & _). discriminate.
Qed.

(** C3: in a run in which a lookup raises [AutomationAssetNotFound],
    the run ends with that exception and [mmg.main] is never called. *)
Theorem failed_lookup_stops_run store env argv n :
  (n, None) ∈ lookups (log (snd (run store env argv))) ->
  n ∈ secret_names /\
  fst (run store env argv) = inl (AutomationAssetNotFound n) /\
  calls (log (snd (run store env argv))) = [].
Proof.
  intros Hn.
  destruct (run_cases store env argv) as [e evs Ho | l evs m Ho Hm | l evs Ho Hm];
    cbn [fst snd log] in *;
    destruct (webhook_outcome_log _ _ _ Ho) as (Hc & Hl & _).
  - rewrite Hl in Hn. inversion Hn.
  - rewrite lookups_app, Hl, lookups_secret_log, Hm in Hn. cbn [app] in Hn.
    apply elem_of_app in Hn as [Hn | Hn].
    + now apply resolved_lookup_Some in Hn.
    + apply list_elem_of_singleton in Hn as [= ->].
      destruct (missing_Some _ _ _ Hm) as [Hk _].
      split; [eapply list_elem_of_lookup_2; exact Hk |].
      split; [reflexivity | now apply calls_secret_error].
  - rewrite !lookups_app, Hl, lookups_secret_log, Hm in Hn.
    cbn [app lookups omap] in Hn. rewrite !app_nil_r in Hn.
    now apply resolved_lookup_Some in Hn.
Qed.

Lemma failed_lookup_stops_run_witness :
  txt "CONTAINER_NAME" ∈ secret_names /\
  fst (run (Examples.store_without "CONTAINER_NAME") ∅ Examples.scheduled)
  = inl (AutomationAssetNotFound (txt "CONTAINER_NAME")) /\
  calls (log (snd (run (Examples.store_without "CONTAINER_NAME") ∅ Examples.scheduled))) = [].
Proof.
  apply (failed_lookup_stops_run (Examples.store_without "CONTAINER_NAME") ∅
           Examples.scheduled (txt "CONTAINER_NAME")).
  vm_compute. do 2 apply list_elem_of_further. apply list_elem_of_here.
Defined.

(** ** Malformed arguments *)




(** ** The payload *)

Section Replace.

Variables old new : str.
Hypothesis old_not_empty : old <> [].





End Replace.

Section Remove.

Variable old : str.
Hypothesis old_not_empty : old <> [].



End Remove.


Lemma payloads_app l1 l2 : payloads (l1 ++ l2) = payloads l1 ++ payloads l2.
Proof. apply omap_app. Qed.

Lemma payloads_secret_log store names : payloads (secret_log store names) = [].
Proof.
  unfold secret_log. rewrite payloads_app.
  assert (forall kvs, payloads (flat_map published kvs) = []) as ->.
  { induction kvs as [|kv kvs IH]; [reflexivity | exact IH]. }
  destruct (missing store names); reflexivity.
Qed.




(** ** The order of the lookups *)

Section SecretLog.

Variable store : str -> option str.

Lemma secret_log_cons n ns :
  secret_log store (n :: ns) =
  match store n with
  | Some v => get_automation_variable n (Some v) :: environ_set n v :: secret_log store ns
  | None => [get_automation_variable n None]
  end.
Proof.
  unfold secret_log. cbn [resolved missing].
  destruct (store n); reflexivity.
Qed.

Lemma looked_up_cons n ns :
  looked_up store (n :: ns) = match store n with
                        | Some _ => S (looked_up store ns)
                        | None => 1%nat
                        end.
Proof.
  unfold looked_up. rewrite secret_log_cons. destruct (store n); reflexivity.
Qed.


Lemma looked_up_all names :
  missing store names = None -> looked_up store names = length names.
Proof.
  induction names as [|n ns IH]; [reflexivity |].
  rewrite looked_up_cons. cbn [missing length].
  destruct (store n); [| discriminate]. intros H. now rewrite IH.
Qed.


Lemma secret_log_interleaved names :
  secret_log store names =
  flat_map (lookup_and_publish store) (take (looked_up store names) names).
Proof.
  induction names as [|n ns IH]; [reflexivity |].
  rewrite looked_up_cons, secret_log_cons.
  destruct (store n) as [v|] eqn:Hn.
  - change (take (S (looked_up store ns)) (n :: ns)) with (n :: take (looked_up store ns) ns).
    cbn [flat_map]. unfold lookup_and_publish at 1. rewrite Hn. cbn [app].
    now rewrite <- IH.
  - change (take 1 (n :: ns)) with (n :: take 0 ns). rewrite take_0.
    cbn [flat_map]. unfold lookup_and_publish. now rewrite Hn.
Qed.

(** A lookup that fails is the last one. *)
Lemma failed_lookup_last names i n :
  lookups (secret_log store names) !! i = Some (n, None) ->
  S i = looked_up store names /\ missing store names = Some n /\
  length (resolved store names) = i.
Proof.
  revert i. induction names as [|m ns IH]; intros i; [discriminate |].
  rewrite looked_up_cons, secret_log_cons. cbn [missing resolved].
  destruct (store m) as [v|] eqn:Hm.
  - destruct i as [|i]; [discriminate |]. cbn. intros H.
    destruct (IH _ H) as (H1 & H2 & H3). auto.
  - destruct i as [|i]; [| discriminate]. cbn. intros [= ->]. auto.
Qed.

Lemma assignments_secret_log names :
  assignments (secret_log store names) = resolved store names.
Proof.
  induction names as [|n ns IH]; [reflexivity |].
  rewrite secret_log_cons. cbn [resolved].
  destruct (store n) as [v|]; [| reflexivity].
  change (assignments (get_automation_variable n (Some v) :: environ_set n v
                         :: secret_log store ns))
    with ((n, v) :: assignments (secret_log store ns)).
  now rewrite IH.
Qed.


End SecretLog.

(** What a run that got past lines 11 to 18 logs. *)
Lemma run_log_after_webhook store env argv l :
  locals_of argv = Some l ->
  exists evs tail,
    log (snd (run store env argv)) = evs ++ secret_log store secret_names ++ tail /\
    environ (snd (run store env argv)) = set_all env (resolved store secret_names) /\
    lookups evs = [] /\ secret_events evs = [] /\ assignments evs = [] /\
    lookups tail = [] /\ secret_events tail = [] /\ assignments tail = [].
Proof.
  intros Hl.
  destruct (run_cases store env argv) as [e evs Ho | l' evs m Ho Hm | l' evs Ho Hm];
    cbn [snd log environ].
  - rewrite (locals_of_outcome _ _ _ Ho) in Hl. discriminate.
  - exists evs, []. rewrite app_nil_r.
    inversion Ho; subst; repeat split; reflexivity.
  - exists evs, [mmg_main groups (serial l')].
    inversion Ho; subst; repeat split; reflexivity.
Qed.




(** ** The environment after a failed lookup *)

Lemma assignments_app l1 l2 : assignments (l1 ++ l2) = assignments l1 ++ assignments l2.
Proof. apply omap_app. Qed.

(** C7: if the [k]-th lookup (counting from 1) fails, it is the lookup of
    the [k]-th name; the assignments to [os.environ] made by the run are
    those of the first [k-1] names, each to the value the store holds;
    and every other entry of the environment is as it was before the
    run. *)
Theorem failed_lookup_environment store env argv k n :
  (1 <= k)%nat ->
  lookups (log (snd (run store env argv))) !! (k - 1)%nat = Some (n, None) ->
  (k <= 5)%nat /\
  secret_names !! (k - 1)%nat = Some n /\
  map fst (assignments (log (snd (run store env argv)))) = take (k - 1) secret_names /\
  (forall m, m ∈ take (k - 1) secret_names ->
             exists v, store m = Some v /\
                       (m, v) ∈ assignments (log (snd (run store env argv))) /\
                       environ (snd (run store env argv)) !! m = Some v) /\
  (forall m, m ∉ take (k - 1) secret_names ->
             environ (snd (run store env argv)) !! m = env !! m).
Proof.
  intros Hk Hfail.
  destruct (run_cases store env argv) as [e evs Ho | l evs m Ho Hm | l evs Ho Hm];
    cbn [snd log environ] in *.
  - destruct (webhook_outcome_log _ _ _ Ho) as (_ & Hl & _).
    rewrite Hl in Hfail. discriminate.
  - assert (lookups evs = [] /\ assignments evs = []) as [Hl Ha]
      by (inversion Ho; subst; split; reflexivity).
    rewrite lookups_app, Hl in Hfail. cbn [app] in Hfail.
    destruct (failed_lookup_last _ _ _ _ Hfail) as (Hlast & Hmiss & Hlen).
    destruct (missing_Some _ _ _ Hmiss) as [Hname Hnone].
    rewrite Hlen in Hname.
    pose proof (resolved_names store secret_names) as Hres. rewrite Hlen in Hres.
    rewrite assignments_app, Ha, assignments_secret_log. cbn [app].
    split; [| split; [exact Hname | split; [exact Hres | split]]].
    + apply lookup_lt_Some in Hname. cbn [secret_names length] in Hname. lia.
    + intros m' Hm'. rewrite <- Hres in Hm'.
      pose proof Hm' as Hin.
      apply list_elem_of_fmap in Hin as ([m'' v] & -> & Hin). cbn [fst] in *.
      exists v. pose proof (resolved_values _ _ _ _ Hin) as Hv.
      split; [exact Hv | split; [exact Hin |]].
      rewrite <- Hv. apply set_all_in; [exact Hm' |].
      intros m0 v0. apply resolved_values.
    + intros m' Hm'. rewrite <- Hres in Hm'. now apply set_all_notin.
  - assert (lookups evs = []) as Hl by (inversion Ho; subst; reflexivity).
    rewrite !lookups_app, Hl, lookups_secret_log, Hm in Hfail.
    cbn [app lookups omap] in Hfail. rewrite !app_nil_r in Hfail.
    apply list_elem_of_lookup_2 in Hfail.
    now apply resolved_lookup_Some in Hfail.
Qed.

Lemma failed_lookup_environment_witness :
  (3 <= 5)%nat /\
  secret_names !! (3 - 1)%nat = Some (txt "CONTAINER_NAME") /\
  map fst (assignments (log (snd (run (Examples.store_without "CONTAINER_NAME")
                                      {[ txt "PATH" := txt "/usr/bin" ]} Examples.scheduled))))
  = take (3 - 1) secret_names /\
  (forall m, m ∈ take (3 - 1) secret_names ->
             exists v, Examples.store_without "CONTAINER_NAME" m = Some v /\
                       (m, v) ∈ assignments (log (snd (run (Examples.store_without "CONTAINER_NAME")
                                      {[ txt "PATH" := txt "/usr/bin" ]} Examples.scheduled))) /\
                       environ (snd (run (Examples.store_without "CONTAINER_NAME")
                                         {[ txt "PATH" := txt "/usr/bin" ]} Examples.scheduled)) !! m
                       = Some v) /\
  (forall m, m ∉ take (3 - 1) secret_names ->
             environ (snd (run (Examples.store_without "CONTAINER_NAME")
                               {[ txt "PATH" := txt "/usr/bin" ]} Examples.scheduled)) !! m
             = ({[ txt "PATH" := txt "/usr/bin" ]} : gmap str str) !! m).
Proof.
  apply (failed_lookup_environment (Examples.store_without "CONTAINER_NAME")
           {[ txt "PATH" := txt "/usr/bin" ]} Examples.scheduled 3 (txt "CONTAINER_NAME")).
  - lia.
  - vm_compute. reflexivity.
Defined.

(** ** The group list *)

(** C8: the list given to [mmg.main] is the list built in lines 27 to
    40, in the same order, in every run; two runs pass the same list; and
    the ["id"] entries of the list are pairwise distinct. *)
Theorem group_list_is_fixed store env argv store' env' argv' g s g' s' :
  (g, s) ∈ calls (log (snd (run store env argv))) ->
  (g', s') ∈ calls (log (snd (run store' env' argv'))) ->
  g = groups /\ g' = g /\ NoDup (map Group.id g).
Proof.
  assert (forall st e a h t, (h, t) ∈ calls (log (snd (run st e a))) -> h = groups) as Hg.
  { intros st e a h t Hin.
    destruct (run_cases st e a) as [x evs Ho | l evs m Ho Hm | l evs Ho Hm];
      cbn [snd log] in Hin;
      destruct (webhook_outcome_log _ _ _ Ho) as (Hc & _).
    - rewrite Hc in Hin. inversion Hin.
    - rewrite (calls_secret_error _ _ Hc) in Hin. inversion Hin.
    - rewrite (calls_dispatched _ _ _ Hc) in Hin.
      apply list_elem_of_singleton in Hin. congruence. }
  intros H1 H2. apply Hg in H1, H2. subst.
  split; [reflexivity | split; [reflexivity |]].
  apply (bool_decide_unpack _). vm_compute. exact I.
Qed.

Lemma group_list_is_fixed_witness :
  groups = groups /\ groups = groups /\ NoDup (map Group.id groups).
Proof.
  apply (group_list_is_fixed
           Examples.full_store ∅ Examples.scheduled
           Examples.full_store {[ txt "PATH" := txt "/usr/bin" ]}
           (Examples.triggered Examples.abc123)
           groups None groups (Some (JStr (txt "ABC123")))).
  - vm_compute. apply list_elem_of_here.
  - vm_compute. apply list_elem_of_here.
Defined.

(** ** Further arguments *)

Lemma webhook_outcome_first_argument argv argv' r evs :
  argv !! 1%nat = argv' !! 1%nat ->
  webhook_outcome argv r evs -> webhook_outcome argv' r evs.
Proof.
  intros Heq Ho.
  destruct Ho as [H | arg H | arg field H | arg field v H | arg field d H | arg field d v H];
    rewrite Heq in H;
    eauto using no_argument, one_field, bad_json, not_a_dict, no_serial, with_serial.
Qed.

Lemma read_webhook_first_argument argv argv' w :
  argv !! 1%nat = argv' !! 1%nat ->
  read_webhook argv w = read_webhook argv' w.
Proof.
  intros Heq.
  destruct (read_webhook_outcome argv w) as (r & evs & Hr & Ho).
  destruct (read_webhook_outcome argv' w) as (r' & evs' & Hr' & Ho').
  apply (webhook_outcome_first_argument _ _ _ _ Heq) in Ho.
  destruct (webhook_outcome_det _ _ _ _ _ Ho Ho') as [-> ->].
  congruence.
Qed.

(** C9: [sys.argv] is read at index 1 only.  Two runs whose first
    argument is the same (present and equal, or absent in both) have the
    same local variables, hence the same mode and serial, and are the
    same run: same result, same log, same call of [mmg.main]. *)
Theorem only_first_argument_is_read store env argv argv' :
  argv !! 1%nat = argv' !! 1%nat ->
  locals_of argv = locals_of argv' /\
  run store env argv = run store env argv' /\
  calls (log (snd (run store env argv))) = calls (log (snd (run store env argv'))).
Proof.
  intros Heq.
  assert (run store env argv = run store env argv') as Hrun.
  { unfold run, runbook, bind.
    now rewrite (read_webhook_first_argument argv argv' _ Heq). }
  split; [| split; [exact Hrun | now rewrite Hrun]].
  unfold locals_of. now rewrite (read_webhook_first_argument argv argv' _ Heq).
Qed.

Lemma only_first_argument_is_read_witness :
  locals_of [txt "runbooktemplate.py"; Examples.abc123]
  = locals_of [txt "other.py"; Examples.abc123; txt "second"; Examples.numeric] /\
  run Examples.full_store ∅ [txt "runbooktemplate.py"; Examples.abc123]
  = run Examples.full_store ∅ [txt "other.py"; Examples.abc123; txt "second"; Examples.numeric] /\
  calls (log (snd (run Examples.full_store ∅ [txt "runbooktemplate.py"; Examples.abc123])))
  = calls (log (snd (run Examples.full_store ∅
                       [txt "other.py"; Examples.abc123; txt "second"; Examples.numeric]))).
Proof.
  apply (only_first_argument_is_read Examples.full_store ∅
           [txt "runbooktemplate.py"; Examples.abc123]
           [txt "other.py"; Examples.abc123; txt "second"; Examples.numeric]).
  reflexivity.
Defined.

(** ** The serial *)




(** * Further properties of the script *)

(** ** The fields of the argument *)

Lemma split_not_nil sep s : Str.split sep s <> [].
Proof.
  destruct s as [|c s]; cbn [Str.split]; [discriminate |].
  destruct (c =? sep); [discriminate |].
  destruct (Str.split sep s); discriminate.
Qed.

(** There is a second field exactly when the separator occurs. *)
Lemma split_second_field sep s :
  Str.split sep s !! 1%nat = None <-> sep ∉ s.
Proof.
  induction s as [|c s IH]; cbn [Str.split].
  - split; [intros _ H; inversion H | reflexivity].
  - destruct (c =? sep) eqn:Hc.
    + apply N.eqb_eq in Hc as ->. split.
      * pose proof (split_not_nil sep s).
        destruct (Str.split sep s); [contradiction | discriminate].
      * intros H. exfalso. apply H. apply list_elem_of_here.
    + apply N.eqb_neq in Hc.
      rewrite not_elem_of_cons.
      destruct (Str.split sep s) as [|f fs] eqn:Hs.
      * now destruct (split_not_nil sep s).
      * cbn in *. rewrite IH. intuition congruence.
Qed.

(** No field contains the separator. *)
Lemma split_field_no_sep sep s f :
  f ∈ Str.split sep s -> sep ∉ f.
Proof.
  revert f. induction s as [|c s IH]; intros f; cbn [Str.split].
  - intros H. apply list_elem_of_singleton in H as ->. intros H. inversion H.
  - destruct (c =? sep) eqn:Hc.
    + intros H. apply elem_of_cons in H as [-> | H]; [intros H; inversion H | auto].
    + apply N.eqb_neq in Hc.
      destruct (Str.split sep s) as [|f0 fs] eqn:Hs.
      * intros H. apply list_elem_of_singleton in H as ->.
        rewrite not_elem_of_cons. split; [congruence | intros H; inversion H].
      * intros H. apply elem_of_cons in H as [-> | H].
        -- rewrite not_elem_of_cons. split; [congruence |].
           apply IH. apply list_elem_of_here.
        -- apply IH. now apply list_elem_of_further.
Qed.

(** Removing occurrences adds no character. *)
Lemma replace_from_subset old k s c :
  c ∈ Str.replace_from k old [] s -> c ∈ s.
Proof.
  revert k. induction s as [|c0 s IH]; intros k; cbn [Str.replace_from].
  - intros H. inversion H.
  - destruct k as [|k].
    + destruct (Str.startswith (c0 :: s) old).
      * cbn [app]. intros H. apply list_elem_of_further. eapply IH. exact H.
      * intros H. apply elem_of_cons in H as [-> | H].
        -- apply list_elem_of_here.
        -- apply list_elem_of_further. eapply IH. exact H.
    + intros H. apply list_elem_of_further. eapply IH. exact H.
Qed.

(** The events of lines 11 to 18 are at most one call of [json.loads]. *)
Lemma webhook_outcome_events argv r evs :
  webhook_outcome argv r evs ->
  evs = map json_loads (payloads evs) /\ (length (payloads evs) <= 1)%nat.
Proof. intros H. destruct H; split; cbn; solve [reflexivity | lia]. Qed.

Lemma secret_events_app l1 l2 :
  secret_events (l1 ++ l2) = secret_events l1 ++ secret_events l2.
Proof. apply List.filter_app. Qed.

Lemma calls_app l1 l2 : calls (l1 ++ l2) = calls l1 ++ calls l2.
Proof. apply omap_app. Qed.

(** X1: when the argument is present, the run ends in [IndexError]
    exactly when the argument has no comma; then nothing has been
    called ([json.loads] neither) and the environment is untouched. *)
Theorem index_error_iff_no_comma store env argv arg :
  argv !! 1%nat = Some arg ->
  (fst (run store env argv) = inl IndexError <-> 44 ∉ arg) /\
  (44 ∉ arg -> snd (run store env argv) = World env []).
Proof.
  intros Harg.
  assert (44 ∉ arg -> run store env argv = (inl IndexError, World env [])) as Hrun.
  { intros Hno. apply split_second_field in Hno.
    pose proof (one_field argv arg Harg Hno) as Ho.
    destruct (run_cases store env argv) as [e evs Ho' | l evs n Ho' Hm | l evs Ho' Hm];
      destruct (webhook_outcome_det _ _ _ _ _ Ho Ho') as [Hr He];
      try discriminate.
    now injection Hr as <-; subst evs. }
  split; [split |].
  - intros Hres.
    destruct (decide (44 ∈ arg)) as [Hin | Hout]; [| exact Hout]. exfalso.
    destruct (Str.split 44 arg !! 1%nat) as [field|] eqn:Hf.
    + destruct (run_cases store env argv) as [e evs Ho | l evs n Ho Hm | l evs Ho Hm];
        cbn [fst] in Hres; try discriminate.
      injection Hres as ->. inversion Ho; simplify_eq.
    + apply split_second_field in Hf. contradiction.
  - intros Hno. now rewrite (Hrun Hno).
  - intros Hno. now rewrite (Hrun Hno).
Qed.

Lemma index_error_iff_no_comma_witness :
  (fst (run Examples.full_store ∅ (Examples.triggered (txt "no comma here")))
   = inl IndexError <-> 44 ∉ txt "no comma here") /\
  (44 ∉ txt "no comma here" ->
   snd (run Examples.full_store ∅ (Examples.triggered (txt "no comma here"))) = World ∅ []).
Proof.
  apply (index_error_iff_no_comma Examples.full_store ∅
           (Examples.triggered (txt "no comma here")) (txt "no comma here")).
  reflexivity.
Defined.

(** X2: of the argument only the second comma-separated field is used:
    two runs whose arguments have the same second field (or both have
    none) are the same, whatever the first field and the fields after the
    second are. *)
Theorem only_second_field_is_read store env argv argv' arg arg' :
  argv !! 1%nat = Some arg ->
  argv' !! 1%nat = Some arg' ->
  Str.split 44 arg !! 1%nat = Str.split 44 arg' !! 1%nat ->
  run store env argv = run store env argv'.
Proof.
  intros Harg Harg' Hsame.
  assert (forall w, read_webhook argv w = read_webhook argv' w) as Hread.
  { intros w.
    destruct (read_webhook_outcome argv w) as (r & evs & Hr & Ho).
    destruct (read_webhook_outcome argv' w) as (r' & evs' & Hr' & Ho').
    assert (webhook_outcome argv' r evs) as Ho2.
    { destruct Ho as [H | a H Hf | a f H Hf | a f v H Hf | a f d H Hf | a f d v H Hf];
        simplify_eq; rewrite Hsame in Hf;
        eauto using one_field, bad_json, not_a_dict, no_serial, with_serial. }
    destruct (webhook_outcome_det _ _ _ _ _ Ho2 Ho') as [-> ->]. congruence. }
  unfold run, runbook, bind. now rewrite Hread.
Qed.

Lemma only_second_field_is_read_witness :
  run Examples.full_store ∅ (Examples.triggered Examples.abc123)
  = run Examples.full_store ∅
      (Examples.triggered
         (txt "{WebhookName:w,RequestBody:{" ++ quoted "serial" ++ txt ":" ++ quoted "ABC123"
            ++ txt "},RequestHeader:{x:y,z:t}}")).
Proof.
  apply (only_second_field_is_read Examples.full_store ∅
           (Examples.triggered Examples.abc123)
           (Examples.triggered
              (txt "{WebhookName:w,RequestBody:{" ++ quoted "serial" ++ txt ":" ++ quoted "ABC123"
                 ++ txt "},RequestHeader:{x:y,z:t}}"))
           Examples.abc123
           (txt "{WebhookName:w,RequestBody:{" ++ quoted "serial" ++ txt ":" ++ quoted "ABC123"
              ++ txt "},RequestHeader:{x:y,z:t}}")).
  - reflexivity.
  - reflexivity.
  - vm_compute. reflexivity.
Defined.

(** X3: the text given to [json.loads] never contains a comma, because
    it comes from one field of a split at the commas; a request body with
    a comma in it is cut at that comma before it is decoded. *)
Theorem payload_has_no_comma store env argv p :
  p ∈ payloads (log (snd (run store env argv))) -> 44 ∉ p.
Proof.
  intros Hp.
  assert (forall r evs, webhook_outcome argv r evs -> p ∈ payloads evs -> 44 ∉ p) as Hev.
  { intros r evs Ho Hin.
    destruct Ho as [H | a H Hf | a f H Hf | a f v H Hf | a f d H Hf | a f d v H Hf];
      cbn in Hin; try (inversion Hin; fail);
      apply list_elem_of_singleton in Hin as ->;
      intros Hc; unfold Str.replace in Hc;
      apply replace_from_subset in Hc;
      apply list_elem_of_lookup_2 in Hf;
      exact (split_field_no_sep _ _ _ Hf Hc). }
  destruct (run_cases store env argv) as [e evs Ho | l evs n Ho Hm | l evs Ho Hm];
    cbn [snd log] in Hp.
  - eauto.
  - rewrite payloads_app, payloads_secret_log, app_nil_r in Hp. eauto.
  - rewrite !payloads_app, payloads_secret_log in Hp. cbn in Hp.
    rewrite app_nil_r in Hp. eauto.
Qed.

Lemma payload_has_no_comma_witness :
  44 ∉ txt "{" ++ quoted "serial" ++ txt ":" ++ quoted "ABC123".
Proof.
  apply (payload_has_no_comma Examples.full_store ∅
           (Examples.triggered
              (txt "a,RequestBody:{" ++ quoted "serial" ++ txt ":" ++ quoted "ABC123"
                 ++ txt "," ++ quoted "model" ++ txt ":" ++ quoted "Mac" ++ txt "}"))).
  vm_compute. apply list_elem_of_here.
Defined.

(** ** The exceptions of a run *)




(** ** The call of the generator *)

(** X6: in every run [mmg.main] is called at most once; it is called
    exactly when no statement before it raised; and its call is the last
    thing the script does. *)
Theorem generator_called_last store env argv :
  (length (calls (log (snd (run store env argv)))) <= 1)%nat /\
  (fst (run store env argv) = inr tt <-> calls (log (snd (run store env argv))) <> []) /\
  (forall g s, mmg_main g s ∈ log (snd (run store env argv)) ->
               last (log (snd (run store env argv))) = Some (mmg_main g s)).
Proof.
  destruct (run_cases store env argv) as [e evs Ho | l evs n Ho Hm | l evs Ho Hm];
    cbn [fst snd log];
    destruct (webhook_outcome_log _ _ _ Ho) as (Hc & _);
    destruct (webhook_outcome_events _ _ _ Ho) as (Hev & _).
  - rewrite Hc. repeat split; try (cbn; lia); try discriminate; try congruence.
    intros g s Hin. rewrite Hev in Hin.
    apply list_elem_of_fmap in Hin as (? & [=] & _).
  - rewrite (calls_secret_error _ _ Hc).
    repeat split; try (cbn; lia); try discriminate; try congruence.
    intros g s Hin. apply elem_of_app in Hin as [Hin | Hin].
    + rewrite Hev in Hin. apply list_elem_of_fmap in Hin as (? & [=] & _).
    + rewrite <- secret_events_secret_log in Hin.
      apply list_elem_of_In, List.filter_In in Hin as [_ Hin]. discriminate.
  - rewrite (calls_dispatched _ _ _ Hc).
    repeat split; try (cbn; lia); try discriminate.
    intros g s Hin. rewrite !app_assoc, last_snoc. f_equal.
    apply elem_of_app in Hin as [Hin | Hin].
    + rewrite Hev in Hin. apply list_elem_of_fmap in Hin as (? & [=] & _).
    + apply elem_of_app in Hin as [Hin | Hin].
      * rewrite <- secret_events_secret_log in Hin.
        apply list_elem_of_In, List.filter_In in Hin as [_ Hin]. discriminate.
      * now apply list_elem_of_singleton in Hin.
Qed.

(** A run that logs a call of [mmg.main] ended with it. *)
Lemma call_implies_dispatched store env argv g s :
  mmg_main g s ∈ log (snd (run store env argv)) ->
  exists l evs,
    webhook_outcome argv (inr l) evs /\
    missing store secret_names = None /\
    run store env argv
    = (inr tt, World (set_all env (resolved store secret_names))
                     (evs ++ secret_log store secret_names ++ [mmg_main groups (serial l)])) /\
    mmg_main groups (serial l) = mmg_main g s.
Proof.
  intros Hin.
  assert (forall evs r, webhook_outcome argv r evs -> mmg_main g s ∉ evs) as Hev.
  { intros evs r Ho H. destruct (webhook_outcome_events _ _ _ Ho) as (Hev & _).
    rewrite Hev in H. apply list_elem_of_fmap in H as (? & [=] & _). }
  assert (mmg_main g s ∉ secret_log store secret_names) as Hsl.
  { intros H. rewrite <- secret_events_secret_log in H.
    apply list_elem_of_In, List.filter_In in H as [_ H]. discriminate. }
  destruct (run_cases store env argv) as [e evs Ho | l evs n Ho Hm | l evs Ho Hm];
    cbn [snd log] in Hin.
  - now destruct (Hev _ _ Ho).
  - apply elem_of_app in Hin as [Hin | Hin]; [now destruct (Hev _ _ Ho) | contradiction].
  - exists l, evs. repeat split; try assumption.
    apply elem_of_app in Hin as [Hin | Hin]; [now destruct (Hev _ _ Ho) |].
    apply elem_of_app in Hin as [Hin | Hin]; [contradiction |].
    now apply list_elem_of_singleton in Hin.
Qed.

(** X7: when [mmg.main] is called, all five variables have been looked
    up and assigned before, in the fixed order, and the environment the
    generator sees holds for each of the five names the value of the
    store. *)
Theorem credentials_set_before_call store env argv g s :
  mmg_main g s ∈ log (snd (run store env argv)) ->
  (exists before,
     log (snd (run store env argv))
     = before ++ flat_map (lookup_and_publish store) secret_names ++ [mmg_main g s] /\
     secret_events before = []) /\
  map fst (assignments (log (snd (run store env argv)))) = secret_names /\
  (forall n, n ∈ secret_names ->
             exists v, store n = Some v /\
                       environ (snd (run store env argv)) !! n = Some v).
Proof.
  intros Hcall.
  destruct (call_implies_dispatched store env argv g s Hcall)
    as (l & evs & Ho & Hm & Hrun & Hg).
  rewrite Hrun. cbn [snd log environ].
  destruct (webhook_outcome_log _ _ _ Ho) as (_ & _ & Hse).
  assert (assignments evs = []) as Ha by (inversion Ho; reflexivity).
  split; [| split].
  - exists evs. split; [| exact Hse].
    rewrite (secret_log_interleaved store secret_names), (looked_up_all _ _ Hm).
    rewrite firstn_all. now rewrite Hg.
  - rewrite !assignments_app, Ha, assignments_secret_log. cbn [app assignments omap].
    rewrite app_nil_r. now apply missing_None_resolved.
  - intros n Hn.
    pose proof (proj1 (missing_None store secret_names) Hm n Hn) as [v Hv].
    exists v. split; [exact Hv |]. rewrite <- Hv.
    apply set_all_in.
    + now rewrite (missing_None_resolved _ _ Hm).
    + intros m u. apply resolved_values.
Qed.

Lemma credentials_set_before_call_witness :
  (exists before,
     log (snd (run Examples.full_store ∅ (Examples.triggered Examples.abc123)))
     = before ++ flat_map (lookup_and_publish Examples.full_store) secret_names
         ++ [mmg_main groups (Some (JStr (txt "ABC123")))] /\
     secret_events before = []) /\
  map fst (assignments (log (snd (run Examples.full_store ∅ (Examples.triggered Examples.abc123)))))
  = secret_names /\
  (forall n, n ∈ secret_names ->
             exists v, Examples.full_store n = Some v /\
                       environ (snd (run Examples.full_store ∅ (Examples.triggered Examples.abc123)))
                       !! n = Some v).
Proof.
  apply (credentials_set_before_call Examples.full_store ∅
           (Examples.triggered Examples.abc123) groups (Some (JStr (txt "ABC123")))).
  vm_compute. do 11 apply list_elem_of_further. apply list_elem_of_here.
Defined.

(** ** The environment *)

Lemma resolved_names_subset store names n :
  n ∈ map fst (resolved store names) -> n ∈ names.
Proof.
  rewrite resolved_names. intros H. apply elem_of_take in H as (i & Hi & _).
  eapply list_elem_of_lookup_2. exact Hi.
Qed.

(** The environment after the lookups, entry by entry. *)
Lemma set_all_resolved_lookup store env names m :
  set_all env (resolved store names) !! m =
  if decide (m ∈ map fst (resolved store names)) then store m else env !! m.
Proof.
  destruct (decide (m ∈ map fst (resolved store names))) as [Hin | Hout].
  - apply set_all_in; [exact Hin |]. intros n v. apply resolved_values.
  - now apply set_all_notin.
Qed.

Lemma resolved_is_Some store names m :
  m ∈ map fst (resolved store names) -> is_Some (store m).
Proof.
  intros H. apply list_elem_of_fmap in H as ([n v] & -> & H).
  apply resolved_values in H. cbn. eauto.
Qed.

(** The environment a run ends with is the one it started with or the
    one after the lookups. *)
Lemma run_environ store env argv :
  environ (snd (run store env argv)) = env \/
  environ (snd (run store env argv)) = set_all env (resolved store secret_names).
Proof.
  destruct (run_cases store env argv) as [e evs Ho | l evs n Ho Hm | l evs Ho Hm];
    cbn [snd environ]; auto.
Qed.

(** X8: a run changes no entry of the environment other than those of
    the five names, removes no entry, and every value it writes is the
    value the store holds for that name. *)
Theorem environment_frame store env argv :
  (forall m, m ∉ secret_names ->
             environ (snd (run store env argv)) !! m = env !! m) /\
  dom env ⊆ dom (environ (snd (run store env argv))) /\
  (forall m v, environ (snd (run store env argv)) !! m = Some v ->
               env !! m = Some v \/ (m ∈ secret_names /\ store m = Some v)).
Proof.
  destruct (run_environ store env argv) as [-> | ->].
  - repeat split; [set_solver | auto].
  - split; [| split].
    + intros m Hm. rewrite set_all_resolved_lookup.
      destruct (decide _) as [Hin | _]; [| reflexivity].
      apply resolved_names_subset in Hin. contradiction.
    + intros m Hm. apply elem_of_dom in Hm. apply elem_of_dom.
      rewrite set_all_resolved_lookup.
      destruct (decide _) as [Hin | _]; [| exact Hm].
      now apply resolved_is_Some in Hin.
    + intros m v. rewrite set_all_resolved_lookup.
      destruct (decide _) as [Hin | _]; [| auto].
      intros Hv. right. split; [| exact Hv].
      now apply resolved_names_subset in Hin.
Qed.

(** X9: running the script again is harmless for the environment: after
    a run that reached the lookups, a second run over the same store,
    with any arguments, leaves the environment as the first run left
    it. *)
Theorem second_run_keeps_environment store env argv argv' l :
  locals_of argv = Some l ->
  environ (snd (run store (environ (snd (run store env argv))) argv'))
  = environ (snd (run store env argv)).
Proof.
  intros Hl.
  destruct (run_log_after_webhook store env argv l Hl) as (_ & _ & _ & Henv & _).
  destruct (run_environ store (environ (snd (run store env argv))) argv') as [-> | ->];
    [reflexivity |].
  rewrite Henv. apply map_eq. intros m.
  rewrite !set_all_resolved_lookup.
  destruct (decide _); reflexivity.
Qed.

Lemma second_run_keeps_environment_witness :
  environ (snd (run (Examples.store_without "TENANT_NAME")
                    (environ (snd (run (Examples.store_without "TENANT_NAME")
                                       {[ txt "PATH" := txt "/usr/bin" ]} Examples.scheduled)))
                    (Examples.triggered Examples.abc123)))
  = environ (snd (run (Examples.store_without "TENANT_NAME")
                      {[ txt "PATH" := txt "/usr/bin" ]} Examples.scheduled)).
Proof.
  apply (second_run_keeps_environment (Examples.store_without "TENANT_NAME")
           {[ txt "PATH" := txt "/usr/bin" ]} Examples.scheduled
           (Examples.triggered Examples.abc123) (Locals false None)).
  reflexivity.
Defined.

(** X10: what the lookups do does not depend on the argument: two runs
    over the same store and environment that both get past lines 11 to
    18 make the same lookups and assignments, end with the same
    environment, and both raise the same exception or both call
    [mmg.main]. *)
Theorem lookups_ignore_the_argument store env argv argv' l l' :
  locals_of argv = Some l ->
  locals_of argv' = Some l' ->
  secret_events (log (snd (run store env argv)))
  = secret_events (log (snd (run store env argv'))) /\
  environ (snd (run store env argv)) = environ (snd (run store env argv')) /\
  fst (run store env argv) = fst (run store env argv').
Proof.
  intros Hl Hl'.
  assert (forall a k, locals_of a = Some k ->
            secret_events (log (snd (run store env a))) = secret_log store secret_names /\
            environ (snd (run store env a)) = set_all env (resolved store secret_names) /\
            fst (run store env a) = secrets_result store secret_names) as Hone.
  { intros a k Hk.
    destruct (run_cases store env a) as [e evs Ho | k' evs n Ho Hm | k' evs Ho Hm];
      cbn [fst snd log environ].
    - rewrite (locals_of_outcome _ _ _ Ho) in Hk. discriminate.
    - destruct (webhook_outcome_log _ _ _ Ho) as (_ & _ & Hse).
      rewrite secret_events_app, Hse, secret_events_secret_log.
      unfold secrets_result. rewrite Hm. auto.
    - destruct (webhook_outcome_log _ _ _ Ho) as (_ & _ & Hse).
      rewrite !secret_events_app, Hse, secret_events_secret_log.
      unfold secrets_result. rewrite Hm. cbn. rewrite app_nil_r. auto. }
  destruct (Hone _ _ Hl) as (-> & -> & ->).
  destruct (Hone _ _ Hl') as (-> & -> & ->).
  auto.
Qed.

Lemma lookups_ignore_the_argument_witness :
  secret_events (log (snd (run (Examples.store_without "TENANT_NAME") ∅ Examples.scheduled)))
  = secret_events (log (snd (run (Examples.store_without "TENANT_NAME") ∅
                                 (Examples.triggered Examples.abc123)))) /\
  environ (snd (run (Examples.store_without "TENANT_NAME") ∅ Examples.scheduled))
  = environ (snd (run (Examples.store_without "TENANT_NAME") ∅
                      (Examples.triggered Examples.abc123))) /\
  fst (run (Examples.store_without "TENANT_NAME") ∅ Examples.scheduled)
  = fst (run (Examples.store_without "TENANT_NAME") ∅ (Examples.triggered Examples.abc123)).
Proof.
  apply (lookups_ignore_the_argument (Examples.store_without "TENANT_NAME") ∅
           Examples.scheduled (Examples.triggered Examples.abc123)
           (Locals false None) (Locals true (Some (JStr (txt "ABC123"))))).
  - reflexivity.
  - vm_compute. reflexivity.
Defined.

(** ** The mode *)

(** X11: a call of [mmg.main] carries [serial_number] exactly when the
    script was started with an argument. *)
Theorem serial_number_iff_argument store env argv g s :
  (g, s) ∈ calls (log (snd (run store env argv))) ->
  (is_Some s <-> is_Some (argv !! 1%nat)).
Proof.
  intros Hin.
  destruct (run_cases store env argv) as [e evs Ho | l evs n Ho Hm | l evs Ho Hm];
    cbn [snd log] in Hin;
    destruct (webhook_outcome_log _ _ _ Ho) as (Hc & _).
  - rewrite Hc in Hin. inversion Hin.
  - rewrite (calls_secret_error _ _ Hc) in Hin. inversion Hin.
  - rewrite (calls_dispatched _ _ _ Hc) in Hin.
    apply list_elem_of_singleton in Hin as [= -> ->].
    inversion Ho as [Harg | | | | | a f d v Harg]; subst; cbn [serial].
    + rewrite Harg. split; intros [? [=]].
    + rewrite Harg. split; eauto.
Qed.

Lemma serial_number_iff_argument_witness :
  is_Some (None : option json) <-> is_Some (Examples.scheduled !! 1%nat).
Proof.
  apply (serial_number_iff_argument Examples.full_store ∅ Examples.scheduled groups None).
  vm_compute. apply list_elem_of_here.
Defined.

(** ** The phases of a run *)

(** X12: the three kinds of calls never interleave: a log is at most one
    call of [json.loads], then the lookups and assignments, then at most
    one call of [mmg.main]. *)
Theorem phases_in_order store env argv :
  let lg := log (snd (run store env argv)) in
  lg = map json_loads (payloads lg) ++ secret_events lg
       ++ map (fun c => mmg_main (fst c) (snd c)) (calls lg) /\
  (length (payloads lg) <= 1)%nat /\
  (length (calls lg) <= 1)%nat.
Proof.
  cbn zeta.
  destruct (run_cases store env argv) as [e evs Ho | l evs n Ho Hm | l evs Ho Hm];
    cbn [snd log];
    destruct (webhook_outcome_log _ _ _ Ho) as (Hc & _ & Hse);
    destruct (webhook_outcome_events _ _ _ Ho) as (Hev & Hlen).
  - rewrite Hc, Hse. cbn [map app length]. rewrite app_nil_r.
    split; [exact Hev | split; [exact Hlen | lia]].
  - rewrite payloads_app, payloads_secret_log, secret_events_app, Hse,
      secret_events_secret_log, (calls_secret_error _ _ Hc).
    cbn [map app length]. rewrite !app_nil_r.
    split; [now rewrite <- Hev | split; [exact Hlen | lia]].
  - rewrite !payloads_app, payloads_secret_log, !secret_events_app, Hse,
      secret_events_secret_log, (calls_dispatched _ _ _ Hc).
    cbn [payloads omap secret_events List.filter is_secret_event map app length fst snd].
    rewrite !app_nil_r.
    split; [now rewrite <- Hev | split; [exact Hlen | lia]].
Qed.
